(** * hms58/pool: the channel-backed resource pool of [channel.go]

    A shallow embedding of [channelPool] (construction, [Get], [Put],
    [Close], [Release], [Len], [Stats]) as state-passing functions, and
    the properties of the pool's specification proved about them.

    Modelling decisions, all taken from the Go source:
    - [interface{}] values are [option handle]: [None] is Go's [nil], [Some h]
      is a dynamic value identified by [h] (pointer identity).
    - [error] values are [option goerror], [None] being [nil].
    - [time.Time] and [time.Duration] are integers (nanoseconds); the clock is
      read from the external world.
    - the user supplied [Factory] and [Close] functions are transformers of the
      external world; every call of one of them is recorded in a trace.
    - [chan *idleConn] is a capacity and a FIFO list of nil-able pointers.
    - a call of a nil function value or a nil pointer dereference panics.
    - [stats.Hits] and [stats.Misses] are [uint32]: additions wrap at 2^32.
    - calls are sequential: the mutex [mu] and the atomics have no content. *)

From Stdlib Require Import String ZArith List Bool Lia.
From Stdlib Require Finite.
Import ListNotations.
Local Open Scope Z_scope.

(** ** Go values *)

Definition Time := Z.
Definition Duration := Z.

(** [t.Add(d)] and [t.Before(u)] of package [time]. *)
Definition Time_Add (t : Time) (d : Duration) : Time := t + d.
Definition Time_Before (t u : Time) : bool := t <? u.

Definition handle := nat.
Definition iface := option handle.

(** Modelled from the spec: the package variable [ErrClosed] that [Get]
    returns is declared outside [channel.go]; the spec calls it the
    closed-pool error.  [ErrorString] is a value made by [errors.New];
    [Foreign] stands for the errors of the collaborators. *)
Inductive goerror : Type :=
| ErrClosed
| ErrorString (msg : string)
| Foreign (code : nat).

Definition error := option goerror.

(** [errors.New("pool is nil. rejecting")], in [Put] and [Close]. *)
Definition ErrNilConn : goerror := ErrorString "pool is nil. rejecting".

Definition uint32_modulus : Z := 2 ^ 32.
Definition AddUint32 (x delta : Z) : Z := (x + delta) mod uint32_modulus.

(** The external world: whatever the collaborators act upon, and the clock. *)
Class Environment : Type := {
  World : Type;
  clock : World -> Time
}.

Record idleConn : Type := {
  conn : iface;
  t : Time
}.

Record Stats : Type := {
  Hits : Z;
  Misses : Z;
  TotalConns : Z
}.

(** A buffered channel of [*idleConn]: [None] is a nil pointer. *)
Record chan : Type := {
  chan_cap : Z;
  chan_buf : list (option idleConn)
}.

Definition len_chan (ch : chan) : Z := Z.of_nat (length (chan_buf ch)).

Inductive Event : Type :=
| EvFactory
| EvClose (c : iface).

Section Pool.
Context `{Env : Environment}.

Definition factory_fn : Type := World -> (iface * error) * World.
Definition closer_fn : Type := iface -> World -> error * World.

(** [PoolConfig]; its field [Close] is named [CloseConn] here, [Close] being
    the method of [channelPool]. *)
Record PoolConfig : Type := {
  MaxCap : Z;
  Factory : option factory_fn;
  CloseConn : option closer_fn;
  IdleTimeout : Duration
}.

(** [channelPool] without its mutexes and the unused [busyConns]. *)
Record channelPool : Type := {
  conns : option chan;
  factory : option factory_fn;
  close : option closer_fn;
  idleTimeout : Duration;
  stats : Stats
}.

Record State : Type := {
  pool : channelPool;
  world : World;
  trace : list Event
}.

Inductive Outcome (A : Type) : Type :=
| Returns (a : A) (s : State)
| Panics (s : State).
Arguments Returns {A} a s.
Arguments Panics {A} s.

Definition M (A : Type) : Type := State -> Outcome A.

Definition ret {A} (a : A) : M A := fun s => Returns a s.
Definition bind {A B} (m : M A) (k : A -> M B) : M B :=
  fun s => match m s with
           | Returns a s' => k a s'
           | Panics s' => Panics s'
           end.
Definition panic {A} : M A := fun s => Panics s.
Definition gets {A} (f : channelPool -> A) : M A := fun s => Returns (f (pool s)) s.
Definition modify (f : State -> State) : M unit := fun s => Returns tt (f s).

Definition final {A} (o : Outcome A) : State :=
  match o with Returns _ s => s | Panics s => s end.

Definition set_pool (p : channelPool) (s : State) : State :=
  {| pool := p; world := world s; trace := trace s |}.
Definition set_world (w : World) (s : State) : State :=
  {| pool := pool s; world := w; trace := trace s |}.
Definition log (e : Event) (s : State) : State :=
  {| pool := pool s; world := world s; trace := trace s ++ [e] |}.

Definition with_conns (cs : option chan) (p : channelPool) : channelPool :=
  {| conns := cs; factory := factory p; close := close p;
     idleTimeout := idleTimeout p; stats := stats p |}.
Definition with_close (cl : option closer_fn) (p : channelPool) : channelPool :=
  {| conns := conns p; factory := factory p; close := cl;
     idleTimeout := idleTimeout p; stats := stats p |}.
Definition with_stats (st : Stats) (p : channelPool) : channelPool :=
  {| conns := conns p; factory := factory p; close := close p;
     idleTimeout := idleTimeout p; stats := st |}.

(** The content of the channel the pool holds becomes [q]. *)
Definition set_buf (q : list (option idleConn)) (s : State) : State :=
  match conns (pool s) with
  | Some ch =>
      set_pool (with_conns (Some {| chan_cap := chan_cap ch; chan_buf := q |}) (pool s)) s
  | None => s
  end.

Definition add_Hits (s : State) : State :=
  let st := stats (pool s) in
  set_pool (with_stats {| Hits := AddUint32 (Hits st) 1; Misses := Misses st;
                          TotalConns := TotalConns st |} (pool s)) s.
Definition add_Misses (s : State) : State :=
  let st := stats (pool s) in
  set_pool (with_stats {| Hits := Hits st; Misses := AddUint32 (Misses st) 1;
                          TotalConns := TotalConns st |} (pool s)) s.

Definition time_Now : M Time := fun s => Returns (clock (world s)) s.

Definition call_factory (f : factory_fn) : M (iface * error) :=
  fun s => let (r, w) := f (world s) in Returns r (set_world w (log EvFactory s)).
Definition call_closer (f : closer_fn) (c : iface) : M error :=
  fun s => let (e, w) := f c (world s) in Returns e (set_world w (log (EvClose c) s)).

Notation "x <- m ;; k" := (bind m (fun x => k))
  (at level 61, m at next level, right associativity).
Notation "m ;;; k" := (bind m (fun _ => k))
  (at level 61, right associativity).

(** ** The pool *)

Definition NewChannelPool (poolConfig : PoolConfig) : channelPool :=
  let maxCap := if MaxCap poolConfig <=? 0 then 10 else MaxCap poolConfig in
  {| conns := Some {| chan_cap := maxCap; chan_buf := [] |};
     factory := Factory poolConfig;
     close := CloseConn poolConfig;
     idleTimeout := IdleTimeout poolConfig;
     stats := {| Hits := 0; Misses := 0; TotalConns := 0 |} |}.

Definition getConns (c : channelPool) : option chan := conns c.

Definition Close (c : iface) : M error :=
  match c with
  | None => ret (Some ErrNilConn)
  | Some _ =>
      cl <- gets close ;;
      match cl with
      | Some f => call_closer f c
      | None => ret None
      end
  end.

(** The [for { select { ... } }] of [Get] on the channel content [q]: every
    iteration that does not return has received one element, so the loop is
    a recursion on [q]; the [default] case is the empty channel. *)
Fixpoint Get_loop (q : list (option idleConn)) : M (iface * error) :=
  match q with
  | [] =>
      fct <- gets factory ;;
      match fct with
      | None => panic
      | Some f =>
          r <- call_factory f ;;
          match snd r with
          | Some e => ret (None, Some e)
          | None => modify add_Misses ;;; ret (fst r, None)
          end
      end
  | wrapConn :: q' =>
      modify (set_buf q') ;;;
      match wrapConn with
      | None => Get_loop q'
      | Some wc =>
          timeout <- gets idleTimeout ;;
          now <- time_Now ;;
          if (0 <? timeout) && Time_Before (Time_Add (t wc) timeout) now
          then Close (conn wc) ;;; Get_loop q'
          else modify add_Hits ;;; ret (conn wc, None)
      end
  end.

Definition Get : M (iface * error) :=
  cs <- gets getConns ;;
  match cs with
  | None => ret (None, Some ErrClosed)
  | Some ch => Get_loop (chan_buf ch)
  end.

Definition Put (c : iface) : M error :=
  match c with
  | None => ret (Some ErrNilConn)
  | Some _ =>
      cs <- gets conns ;;
      match cs with
      | None => Close c
      | Some ch =>
          now <- time_Now ;;
          if len_chan ch <? chan_cap ch
          then modify (set_buf (chan_buf ch ++ [Some {| conn := c; t := now |}])) ;;;
               ret None
          else Close c
      end
  end.

(** [for wrapConn := range conns { closeFun(wrapConn.conn) }] on the closed
    channel: the buffered elements in order, the result of [closeFun]
    dropped. *)
Fixpoint drain (closeFun : option closer_fn) (q : list (option idleConn)) : M unit :=
  match q with
  | [] => ret tt
  | wrapConn :: q' =>
      match wrapConn, closeFun with
      | Some wc, Some f => call_closer f (conn wc) ;;; drain closeFun q'
      | _, _ => panic
      end
  end.

Definition Release : M unit :=
  cs <- gets conns ;;
  closeFun <- gets close ;;
  modify (fun s => set_pool {| conns := None; factory := None; close := None;
                               idleTimeout := idleTimeout (pool s);
                               stats := stats (pool s) |} s) ;;;
  match cs with
  | None => ret tt
  | Some ch => drain closeFun (chan_buf ch)
  end.

Definition Len (c : channelPool) : Z :=
  match getConns c with
  | Some ch => len_chan ch
  | None => 0
  end.

Definition PoolStats (c : channelPool) : Stats :=
  {| Hits := Hits (stats c); Misses := Misses (stats c);
     TotalConns := Len c mod uint32_modulus |}.

(** ** Sequences of calls *)

(** [Put] of each element of [cs] in turn, the results collected. *)
Fixpoint Puts (cs : list iface) : M (list error) :=
  match cs with
  | [] => ret []
  | c :: cs' => e <- Put c ;; es <- Puts cs' ;; ret (e :: es)
  end.


(** What a client can do to a pool; between two calls the world may change
    (time passes): [EnvStep]. *)
Inductive Call : Type :=
| CallGet
| CallPut (c : iface)
| CallClose (c : iface)
| CallRelease
| EnvStep (w : World).

Definition exec (c : Call) (s : State) : State :=
  match c with
  | CallGet => final (Get s)
  | CallPut x => final (Put x s)
  | CallClose x => final (Close x s)
  | CallRelease => final (Release s)
  | EnvStep w => set_world w s
  end.

Definition run (cs : list Call) (s : State) : State :=
  fold_left (fun s c => exec c s) cs s.

(** ** Specification vocabulary *)

Definition buffer (s : State) : list (option idleConn) :=
  match conns (pool s) with
  | Some ch => chan_buf ch
  | None => []
  end.

(** The pool after [Release]: channel, factory and closer are nil. *)
Definition shut (s : State) : Prop :=
  conns (pool s) = None /\ factory (pool s) = None /\ close (pool s) = None.

(** The world after the closer [f] has run on each of [cs] in turn. *)
Definition closed_world (f : closer_fn) (cs : list iface) (w : World) : World :=
  fold_left (fun w c => snd (f c w)) cs w.

(** The idle entry [Put] makes of [c] at time [now]. *)
Definition idle_entry (now : Time) (c : iface) : option idleConn :=
  Some {| conn := c; t := now |}.


(** The age of an idle entry at time [now], and staleness as the spec has it:
    eviction is enabled and the age exceeds the idle timeout. *)
Definition age (now : Time) (wc : idleConn) : Duration := now - t wc.
Definition is_stale (timeout : Duration) (now : Time) (wc : idleConn) : Prop :=
  0 < timeout /\ timeout < age now wc.


(** The closer calls that [Close] of each of [cs] adds to the trace. *)
Definition closer_calls (cl : option closer_fn) (cs : list iface) : list Event :=
  match cl with
  | Some _ => map EvClose (filter (fun c => match c with Some _ => true | None => false end) cs)
  | None => []
  end.

(** The state of an outcome transformed by [h]. *)
Definition on_state {A} (h : State -> State) (o : Outcome A) : Outcome A :=
  match o with
  | Returns a s => Returns a (h s)
  | Panics s => Panics (h s)
  end.

Definition set_close (cl : option closer_fn) (s : State) : State :=
  set_pool (with_close cl (pool s)) s.

(** ** Clients of the pool *)

(** [n] calls of [Get] in turn, the results collected. *)
Fixpoint Gets (n : nat) : M (list (iface * error)) :=
  match n with
  | O => ret []
  | S n' => r <- Get ;; rs <- Gets n' ;; ret (r :: rs)
  end.

(** How many of the results of [Get] carry a nil error. *)
Definition nil_errors (rs : list (iface * error)) : nat :=
  length (filter (fun r => match snd r with None => true | Some _ => false end) rs).




End Pool.

Arguments Returns {Env A} a s.
Arguments Panics {Env A} s.

(** ** The busy list

    [popBusy], [pushBusy] and [BusyLen] touch the slice [busyConns] (under
    its own mutex) and nothing else of the pool: they are functions of the
    slice. *)

Definition popBusy (busyConns : list (option idleConn))
  : option idleConn * list (option idleConn) :=
  if (length busyConns =? 0)%nat then (None, busyConns)
  else
    let idx := (length busyConns - 1)%nat in
    let cn := nth idx busyConns None in
    (cn, firstn idx busyConns).

Definition pushBusy (cn : option idleConn) (busyConns : list (option idleConn))
  : list (option idleConn) :=
  match cn with
  | Some _ => busyConns ++ [cn]
  | None => busyConns
  end.

Definition BusyLen (busyConns : list (option idleConn)) : Z :=
  Z.of_nat (length busyConns).

(** [pushBusy] of each element of [cns] in turn. *)
Definition pushBusyAll (cns busyConns : list (option idleConn)) : list (option idleConn) :=
  fold_left (fun b cn => pushBusy cn b) cns busyConns.

(** [n] calls of [popBusy] in turn, the results collected. *)
Fixpoint popBusyN (n : nat) (busyConns : list (option idleConn))
  : list (option idleConn) * list (option idleConn) :=
  match n with
  | O => ([], busyConns)
  | S n' =>
      let (cn, b) := popBusy busyConns in
      let (cns, b') := popBusyN n' b in
      (cn :: cns, b')
  end.

(** ** A concrete world

    The world is the clock reading and the number of resources created so
    far; the factory hands out fresh handles, the closers succeed or fail. *)

Definition SimEnv : Environment := {|
  World := Z * nat;
  clock := fst
|}.

Definition dummyDialer : @factory_fn SimEnv :=
  fun w => ((Some (S (snd w)), None), (fst w, S (snd w))).
Definition failingDialer : @factory_fn SimEnv :=
  fun w => ((None, Some (Foreign 7)), w).
Definition okCloser : @closer_fn SimEnv := fun _ w => (None, w).
Definition badCloser : @closer_fn SimEnv := fun _ w => (Some (Foreign 3), w).

Definition second : Duration := 1000000000.

Definition simConfig (maxCap : Z) (cl : option (@closer_fn SimEnv)) (timeout : Duration)
  : @PoolConfig SimEnv :=
  {| MaxCap := maxCap; Factory := Some dummyDialer; CloseConn := cl;
     IdleTimeout := timeout |}.

Definition simState (cfg : @PoolConfig SimEnv) : @State SimEnv :=
  {| pool := NewChannelPool cfg; world := (0, 0%nat); trace := [] |}.

Definition simWorld (now : Time) (created : nat) : @World SimEnv := (now, created).

(** A fresh pool of capacity 1 with a 15 s idle timeout. *)
Definition reuseState : @State SimEnv :=
  simState (simConfig 1 (Some okCloser) (15 * second)).


(** A pool with a 10 ns idle timeout and a failing closer, holding resource 5
    released at time 0, seen at time 20. *)
Definition staleState : @State SimEnv :=
  set_world (simWorld 20 0)
    (final (Put (Some 5%nat) (simState (simConfig 0 (Some badCloser) 10)))).


(** A pool of capacity 5 into which five resources have been released. *)
Definition fiveResources : list iface :=
  [Some 1%nat; Some 2%nat; Some 3%nat; Some 4%nat; Some 5%nat].
Definition fiveState : @State SimEnv :=
  final (Puts fiveResources (simState (simConfig 5 (Some okCloser) 0))).

(** A fresh pool of capacity 5 with eviction disabled. *)
Definition queueState : @State SimEnv :=
  simState (simConfig 5 (Some okCloser) 0).

(** A fresh pool of default capacity with a 10 ns idle timeout and a failing
    closer. *)
Definition shortLivedState : @State SimEnv :=
  simState (simConfig 0 (Some badCloser) 10).

(** Two entries for the busy list. *)
Definition busyA : option idleConn := Some {| conn := Some 1%nat; t := 0 |}.
Definition busyB : option idleConn := Some {| conn := Some 2%nat; t := 3 |}.

(** The pool of [benchmarkPoolGetRemove] ([Close: nil]) after one [Put]. *)
Definition noCloserState : @State SimEnv :=
  final (Put (Some 1%nat) (simState (simConfig 10 None (15 * second)))).

(** ** Properties *)

Section Properties.
Context `{Env : Environment}.

(** *** Equations of the operations *)

Lemma bind_Returns {A B} (m : M A) (k : A -> M B) (s s' : State) (a : A) :
  m s = Returns a s' -> bind m k s = k a s'.
Proof. intros H. unfold bind. now rewrite H. Qed.

Lemma set_buf_open (s : State) (ch : chan) (q : list (option idleConn)) :
  conns (pool s) = Some ch ->
  set_buf q s =
  set_pool (with_conns (Some {| chan_cap := chan_cap ch; chan_buf := q |}) (pool s)) s.
Proof. intros H. unfold set_buf. now rewrite H. Qed.

Lemma set_buf_frame (q : list (option idleConn)) (s : State) :
  world (set_buf q s) = world s /\ trace (set_buf q s) = trace s /\
  stats (pool (set_buf q s)) = stats (pool s) /\
  idleTimeout (pool (set_buf q s)) = idleTimeout (pool s) /\
  factory (pool (set_buf q s)) = factory (pool s) /\
  close (pool (set_buf q s)) = close (pool s).
Proof. unfold set_buf. destruct (conns (pool s)); cbn; repeat split. Qed.

Lemma set_buf_conns (q : list (option idleConn)) (s : State) (ch : chan) :
  conns (pool s) = Some ch ->
  conns (pool (set_buf q s)) = Some {| chan_cap := chan_cap ch; chan_buf := q |}.
Proof. intros H. now rewrite (set_buf_open s ch q H). Qed.

Lemma buffer_set_buf (s : State) (ch : chan) (q : list (option idleConn)) :
  conns (pool s) = Some ch -> buffer (set_buf q s) = q.
Proof. intros H. unfold buffer. now rewrite (set_buf_conns q s ch H). Qed.

Lemma set_buf_twice (s : State) (q1 q2 : list (option idleConn)) :
  set_buf q2 (set_buf q1 s) = set_buf q2 s.
Proof.
  unfold set_buf. destruct (conns (pool s)) eqn:E; cbn; [reflexivity | now rewrite E].
Qed.

Lemma AddUint32_small (x : Z) :
  0 <= x < uint32_modulus - 1 -> AddUint32 x 1 = x + 1.
Proof. intros H. unfold AddUint32. apply Z.mod_small. lia. Qed.

(** The test of [Get] on a received entry is the staleness of the spec. *)
Lemma stale_test_spec (timeout : Duration) (now : Time) (wc : idleConn) :
  (0 <? timeout) && Time_Before (Time_Add (t wc) timeout) now = true <->
  is_stale timeout now wc.
Proof.
  unfold is_stale, age, Time_Before, Time_Add.
  rewrite andb_true_iff, !Z.ltb_lt. lia.
Qed.

Lemma fresh_test_spec (timeout : Duration) (now : Time) (wc : idleConn) :
  (0 <? timeout) && Time_Before (Time_Add (t wc) timeout) now = false <->
  timeout <= 0 \/ age now wc <= timeout.
Proof.
  unfold age, Time_Before, Time_Add.
  rewrite andb_false_iff, !Z.ltb_ge. lia.
Qed.

Lemma Close_nil (s : State) : Close None s = Returns (Some ErrNilConn) s.
Proof. reflexivity. Qed.

Lemma Close_no_closer (h : handle) (s : State) :
  close (pool s) = None -> Close (Some h) s = Returns None s.
Proof. intros H. unfold Close, bind, gets, ret. now rewrite H. Qed.

Lemma Close_closer (h : handle) (s : State) (f : closer_fn) :
  close (pool s) = Some f ->
  Close (Some h) s =
  Returns (fst (f (Some h) (world s)))
          (set_world (snd (f (Some h) (world s))) (log (EvClose (Some h)) s)).
Proof.
  intros H. unfold Close, bind, gets, call_closer. rewrite H.
  now destruct (f (Some h) (world s)).
Qed.

(** [Close] always returns, and changes the world and the trace only. *)
Lemma Close_returns (c : iface) (s : State) :
  exists e s', Close c s = Returns e s' /\ pool s' = pool s /\
    trace s' = trace s ++ closer_calls (close (pool s)) [c].
Proof.
  destruct c as [h|].
  - destruct (close (pool s)) as [f|] eqn:E.
    + rewrite (Close_closer h s f E). eexists _, _. split; [reflexivity|].
      split; reflexivity.
    + rewrite (Close_no_closer h s E). eexists _, _. split; [reflexivity|].
      cbn. now rewrite app_nil_r.
  - rewrite Close_nil. eexists _, _. split; [reflexivity|].
    destruct (close (pool s)); cbn; now rewrite app_nil_r.
Qed.

Lemma Put_nil (s : State) : Put None s = Returns (Some ErrNilConn) s.
Proof. reflexivity. Qed.

Lemma Put_room (s : State) (ch : chan) (h : handle) :
  conns (pool s) = Some ch ->
  len_chan ch < chan_cap ch ->
  Put (Some h) s =
  Returns None
    (set_buf (chan_buf ch ++ [idle_entry (clock (world s)) (Some h)]) s).
Proof.
  intros Hc Hlt. unfold Put, bind, gets, time_Now, modify, ret. rewrite Hc.
  apply Z.ltb_lt in Hlt. now rewrite Hlt.
Qed.

Lemma Put_full (s : State) (ch : chan) (c : iface) :
  conns (pool s) = Some ch ->
  chan_cap ch <= len_chan ch ->
  Put c s = Close c s.
Proof.
  intros Hc Hge. destruct c as [h|]; [|reflexivity].
  unfold Put, bind, gets, time_Now. rewrite Hc.
  apply Z.ltb_ge in Hge. now rewrite Hge.
Qed.

Lemma Put_closed (s : State) (c : iface) :
  conns (pool s) = None -> Put c s = Close c s.
Proof.
  intros Hc. destruct c as [h|]; [|reflexivity].
  unfold Put, bind, gets. now rewrite Hc.
Qed.

Lemma Get_closed (s : State) :
  conns (pool s) = None -> Get s = Returns (None, Some ErrClosed) s.
Proof. intros Hc. unfold Get, bind, gets, getConns, ret. now rewrite Hc. Qed.

Lemma Get_open (s : State) (ch : chan) :
  conns (pool s) = Some ch -> Get s = Get_loop (chan_buf ch) s.
Proof. intros Hc. unfold Get, bind, gets, getConns. now rewrite Hc. Qed.

Lemma Get_loop_default (s : State) :
  Get_loop [] s =
  match factory (pool s) with
  | None => Panics s
  | Some f =>
      let s1 := set_world (snd (f (world s))) (log EvFactory s) in
      match snd (fst (f (world s))) with
      | Some e => Returns (None, Some e) s1
      | None => Returns (fst (fst (f (world s))), None) (add_Misses s1)
      end
  end.
Proof.
  cbn. unfold bind, gets, panic, call_factory, modify, ret.
  destruct (factory (pool s)) as [f|]; [|reflexivity].
  destruct (f (world s)) as [[c e] w]. cbn. now destruct e.
Qed.

Lemma Get_loop_skip (q : list (option idleConn)) (s : State) :
  Get_loop (None :: q) s = Get_loop q (set_buf q s).
Proof. reflexivity. Qed.

Lemma Get_loop_fresh (wc : idleConn) (q : list (option idleConn)) (s : State) :
  idleTimeout (pool s) <= 0 \/ age (clock (world s)) wc <= idleTimeout (pool s) ->
  Get_loop (Some wc :: q) s = Returns (conn wc, None) (add_Hits (set_buf q s)).
Proof.
  intros H. apply fresh_test_spec in H. cbn.
  unfold bind, gets, modify, time_Now, ret.
  destruct (set_buf_frame q s) as (-> & _ & _ & -> & _). now rewrite H.
Qed.

Lemma Get_loop_stale (wc : idleConn) (q : list (option idleConn)) (s : State) :
  is_stale (idleTimeout (pool s)) (clock (world s)) wc ->
  Get_loop (Some wc :: q) s =
  bind (Close (conn wc)) (fun _ => Get_loop q) (set_buf q s).
Proof.
  intros H. apply stale_test_spec in H. cbn [Get_loop].
  unfold bind at 1 2 3, gets, modify, time_Now.
  destruct (set_buf_frame q s) as (-> & _ & _ & -> & _). now rewrite H.
Qed.

(** *** The claims *)

(** C7. [Put(nil)] and [Close(nil)] both return the nil-resource error
    ([errors.New] of the message below); the state, hence the idle buffer,
    the counters and the trace of factory and closer calls, is unchanged. *)
Theorem nil_resource_rejected (s : State) :
  Put None s = Returns (Some ErrNilConn) s /\
  Close None s = Returns (Some ErrNilConn) s /\
  ErrNilConn = ErrorString "pool is nil. rejecting".
Proof. repeat split. Qed.

(** C6. [Get] on an open pool with an empty idle buffer calls the factory
    once.  When the factory returns a nil error, [Get] returns its resource
    with a nil error and [Misses] grows by one ([uint32] addition), [Hits]
    and the buffer being unchanged; when it returns an error, [Get] returns
    that very error and the pool (counters and buffer) is unchanged. *)
Theorem Get_empty_calls_factory (s : State) (ch : chan) (f : factory_fn)
    (c : iface) (e : error) (w : World) :
  conns (pool s) = Some ch ->
  chan_buf ch = [] ->
  factory (pool s) = Some f ->
  f (world s) = ((c, e), w) ->
  (e = None ->
   exists s', Get s = Returns (c, None) s' /\
     Misses (stats (pool s')) = AddUint32 (Misses (stats (pool s))) 1 /\
     (0 <= Misses (stats (pool s)) < uint32_modulus - 1 ->
      Misses (stats (pool s')) = Misses (stats (pool s)) + 1) /\
     Hits (stats (pool s')) = Hits (stats (pool s)) /\
     conns (pool s') = conns (pool s) /\
     trace s' = trace s ++ [EvFactory]) /\
  (forall err, e = Some err ->
   exists s', Get s = Returns (None, Some err) s' /\
     pool s' = pool s /\
     trace s' = trace s ++ [EvFactory]).
Proof.
  intros Hc Hb Hf Hw.
  rewrite (Get_open s ch Hc), Hb, Get_loop_default, Hf, Hw. cbn [fst snd].
  split.
  - intros ->. eexists. split; [reflexivity|]. cbn. repeat split.
    intros Hr. now apply AddUint32_small.
  - intros err ->. eexists. split; [reflexivity|]. split; reflexivity.
Qed.

(** C1. On an open pool of capacity 1 whose buffer is empty (the pool as
    constructed with [MaxCap = 1]), [Put] of a resource [r] returns nil and
    the next [Get], at a time when [r] is not stale (eviction disabled, or
    at most [idleTimeout] elapsed since the [Put]), returns [r] itself with
    a nil error; [Hits] grows by one ([uint32] addition), [Misses] is
    unchanged, neither the factory nor the closer is called and the buffer
    is empty again. *)
Theorem Put_then_Get_returns_same (s : State) (ch : chan) (r : handle) (w' : World) :
  conns (pool s) = Some ch ->
  chan_cap ch = 1 ->
  chan_buf ch = [] ->
  idleTimeout (pool s) <= 0 \/ clock w' - clock (world s) <= idleTimeout (pool s) ->
  exists s1 s2,
    Put (Some r) s = Returns None s1 /\
    Get (set_world w' s1) = Returns (Some r, None) s2 /\
    Hits (stats (pool s2)) = AddUint32 (Hits (stats (pool s))) 1 /\
    (0 <= Hits (stats (pool s)) < uint32_modulus - 1 ->
     Hits (stats (pool s2)) = Hits (stats (pool s)) + 1) /\
    Misses (stats (pool s2)) = Misses (stats (pool s)) /\
    trace s2 = trace s /\
    buffer s2 = [].
Proof.
  intros Hc Hcap Hb Ht.
  assert (Hroom : len_chan ch < chan_cap ch).
  { unfold len_chan. rewrite Hb, Hcap. cbn. lia. }
  rewrite (Put_room s ch r Hc Hroom), Hb. cbn [app]. unfold idle_entry.
  set (e := {| conn := Some r; t := clock (world s) |}).
  set (s1 := set_buf [Some e] s).
  assert (Hc1 : conns (pool (set_world w' s1)) =
                Some {| chan_cap := chan_cap ch; chan_buf := [Some e] |}).
  { cbn. apply set_buf_conns, Hc. }
  destruct (set_buf_frame [Some e] s) as (Hw1 & Htr1 & Hst1 & Hto1 & _).
  eexists _, _. split; [reflexivity|].
  rewrite (Get_open _ _ Hc1). cbn [chan_buf].
  assert (Hfresh : idleTimeout (pool (set_world w' s1)) <= 0 \/
            age (clock (world (set_world w' s1))) e <= idleTimeout (pool (set_world w' s1))).
  { change (pool (set_world w' s1)) with (pool s1).
    change (world (set_world w' s1)) with w'.
    unfold s1. rewrite Hto1. exact Ht. }
  rewrite (Get_loop_fresh e [] _ Hfresh).
  split; [reflexivity|].
  destruct (set_buf_frame [] (set_world w' s1)) as (_ & Htr2 & Hst2 & _).
  cbn [add_Hits set_pool with_stats pool stats Hits Misses trace].
  rewrite Hst2, Htr2. cbn [set_world pool trace]. unfold s1. rewrite Hst1, Htr1.
  repeat split.
  - intros Hr. now apply AddUint32_small.
  - exact (buffer_set_buf _ _ [] Hc1).
Qed.

Lemma drain_pool (cl : option closer_fn) (q : list (option idleConn)) (s : State) :
  pool (final (drain cl q s)) = pool s.
Proof.
  revert s. induction q as [|[wc|] q IH]; intros s; cbn; [reflexivity| |reflexivity].
  destruct cl as [f|]; [|reflexivity].
  unfold bind, call_closer. destruct (f (conn wc) (world s)) as [e w].
  now rewrite IH.
Qed.

Lemma drain_closer (f : closer_fn) (ws : list idleConn) (s : State) :
  exists s', drain (Some f) (map Some ws) s = Returns tt s' /\
    pool s' = pool s /\
    trace s' = trace s ++ map EvClose (map conn ws) /\
    world s' = closed_world f (map conn ws) (world s).
Proof.
  revert s. induction ws as [|wc ws IH]; intros s; cbn.
  - eexists. split; [reflexivity|]. now rewrite app_nil_r.
  - unfold bind, call_closer. destruct (f (conn wc) (world s)) as [e w] eqn:E.
    destruct (IH (set_world w (log (EvClose (conn wc)) s))) as (s' & -> & Hp & Ht & Hw).
    exists s'. split; [reflexivity|]. rewrite Hp, Ht, Hw. cbn.
    rewrite <- app_assoc. repeat split.
Qed.

Lemma Release_shuts (s : State) : shut (final (Release s)).
Proof.
  unfold Release, bind, gets, modify, ret, shut.
  destruct (conns (pool s)) as [ch|]; cbn; [|repeat split].
  rewrite drain_pool. repeat split.
Qed.

Lemma exec_shut (c : Call) (s : State) :
  shut s -> pool (exec c s) = pool s /\ trace (exec c s) = trace s.
Proof.
  intros (Hc & Hf & Hcl). destruct c as [|x|x| |w]; cbn [exec].
  - now rewrite (Get_closed s Hc).
  - rewrite (Put_closed s x Hc). destruct x as [h|]; [|now rewrite Close_nil].
    now rewrite (Close_no_closer h s Hcl).
  - destruct x as [h|]; [|now rewrite Close_nil].
    now rewrite (Close_no_closer h s Hcl).
  - unfold Release, bind, gets, modify, ret. rewrite Hc. cbn. split; [|reflexivity].
    destruct (pool s); cbn in *. now subst.
  - split; reflexivity.
Qed.

Lemma run_shut (cs : list Call) (s : State) :
  shut s -> shut (run cs s) /\ pool (run cs s) = pool s /\ trace (run cs s) = trace s.
Proof.
  revert s. induction cs as [|c cs IH]; intros s Hs.
  - split; [exact Hs | split; reflexivity].
  - change (run (c :: cs) s) with (run cs (exec c s)).
    destruct (exec_shut c s Hs) as (Hp & Ht).
    assert (Hs' : shut (exec c s)) by (unfold shut in *; now rewrite Hp).
    destruct (IH _ Hs') as (H1 & H2 & H3). rewrite H2, H3.
    split; [exact H1 | split; assumption].
Qed.

(** C4. Once [Release] has been called (whether it returned or panicked),
    and whatever calls and world changes come after it, [Get] returns
    [(nil, ErrClosed)] and leaves the state as it is: the factory is not
    called, no resource is returned. *)
Theorem Get_after_Release_ErrClosed (s : State) (calls : list Call) :
  Get (run calls (final (Release s))) =
  Returns (None, Some ErrClosed) (run calls (final (Release s))).
Proof.
  destruct (run_shut calls _ (Release_shuts s)) as ((Hc & _) & _).
  now apply Get_closed.
Qed.

(** C9. Once [Release] has been called, and whatever comes after it, [Put]
    of a non-nil resource finds the channel nil and goes to [Close], which
    finds the closer nil: [Put] returns nil and the state is unchanged, so
    the resource is not buffered and no closer is called (the trace is the
    one [Release] itself left). *)
Theorem Put_after_Release_noop (s : State) (calls : list Call) (r : handle) :
  let s1 := run calls (final (Release s)) in
  conns (pool s1) = None /\
  close (pool s1) = None /\
  Put (Some r) s1 = Close (Some r) s1 /\
  Put (Some r) s1 = Returns None s1 /\
  buffer s1 = [] /\
  trace s1 = trace (final (Release s)).
Proof.
  intros s1. destruct (run_shut calls _ (Release_shuts s)) as ((Hc & _ & Hcl) & _ & Ht).
  fold s1 in Hc, Hcl, Ht. repeat split; auto.
  - now apply Put_closed.
  - rewrite (Put_closed s1 _ Hc). now apply Close_no_closer.
  - unfold buffer. now rewrite Hc.
Qed.

(** C5. [Release] on an open pool with a closer [f]: the closer is read
    before the fields are cleared, and it is then called once on the
    resource of every entry the buffer held, in buffer order, so there are
    as many closer calls as entries (5 for 5 buffered resources) and they
    are on distinct resources when the buffered resources are distinct.
    Afterwards channel, factory and closer are nil. *)
Theorem Release_closes_each_entry_once (s : State) (ch : chan) (f : closer_fn)
    (ws : list idleConn) :
  conns (pool s) = Some ch ->
  chan_buf ch = map Some ws ->
  close (pool s) = Some f ->
  exists s' evs,
    Release s = Returns tt s' /\
    trace s' = trace s ++ evs /\
    evs = map EvClose (map conn ws) /\
    length evs = length (chan_buf ch) /\
    (NoDup (map conn ws) -> NoDup evs) /\
    world s' = closed_world f (map conn ws) (world s) /\
    shut s'.
Proof.
  intros Hc Hb Hcl. unfold Release, bind, gets, modify. rewrite Hc, Hcl, Hb.
  match goal with |- context [drain _ _ ?s0] =>
    destruct (drain_closer f ws s0) as (s' & -> & Hp & Ht & Hw) end.
  exists s', (map EvClose (map conn ws)). repeat split; auto.
  - now rewrite !length_map.
  - intros Hnd. apply Finite.Injective_map_NoDup; [|exact Hnd].
    intros x y Hxy. now inversion Hxy.
  - now rewrite Hp.
  - now rewrite Hp.
  - now rewrite Hp.
Qed.

(** *** Capacity *)









(** *** Staleness eviction *)




(** *** Closer errors *)

Lemma set_close_set_buf (cl : option closer_fn) (q : list (option idleConn)) (s : State) :
  set_buf q (set_close cl s) = set_close cl (set_buf q s).
Proof. unfold set_buf, set_close. cbn. now destruct (conns (pool s)). Qed.

Lemma Close_with_closer (f : closer_fn) (c : iface) (s : State) :
  exists e, Close c (set_close (Some f) s) =
    Returns e (set_close (Some f)
      match c with
      | Some _ => set_world (snd (f c (world s))) (log (EvClose c) s)
      | None => s
      end).
Proof.
  destruct c as [h|].
  - rewrite (Close_closer h (set_close (Some f) s) f eq_refl). eexists. reflexivity.
  - rewrite Close_nil. eexists. reflexivity.
Qed.

Lemma Get_loop_closer_indep (f g : closer_fn) (q : list (option idleConn)) (s : State) :
  (forall c w, snd (f c w) = snd (g c w)) ->
  Get_loop q (set_close (Some g) s) =
  on_state (set_close (Some g)) (Get_loop q (set_close (Some f) s)).
Proof.
  intros Hfg. revert s. induction q as [|[wc|] q IH]; intros s.
  - rewrite !Get_loop_default. cbn [set_close set_pool with_close pool factory world].
    destruct (factory (pool s)) as [fct|]; [|reflexivity].
    cbn zeta. now destruct (snd (fst (fct (world s)))).
  - destruct ((0 <? idleTimeout (pool s)) &&
              Time_Before (Time_Add (t wc) (idleTimeout (pool s))) (clock (world s)))
      eqn:Htest.
    + apply stale_test_spec in Htest.
      rewrite (Get_loop_stale wc q (set_close (Some g) s) Htest).
      rewrite (Get_loop_stale wc q (set_close (Some f) s) Htest).
      rewrite !set_close_set_buf.
      destruct (Close_with_closer g (conn wc) (set_buf q s)) as (eg & Hg).
      destruct (Close_with_closer f (conn wc) (set_buf q s)) as (ef & Hf).
      rewrite (bind_Returns _ _ _ _ _ Hg), (bind_Returns _ _ _ _ _ Hf).
      rewrite <- Hfg. apply IH.
    + apply fresh_test_spec in Htest.
      rewrite (Get_loop_fresh wc q (set_close (Some g) s) Htest).
      rewrite (Get_loop_fresh wc q (set_close (Some f) s) Htest).
      rewrite !set_close_set_buf. reflexivity.
  - rewrite !Get_loop_skip, !set_close_set_buf. apply IH.
Qed.

(** C8. Two closers that act alike on the world and differ in the errors
    they return make no difference to [Get]: same result, same error, same
    final state (the closer field apart), so an error of the closer on a
    stale entry never reaches the caller of [Get].  [Close] of a resource
    returns what the closer returns, and so does [Put] when the channel is
    nil or full. *)
Theorem closer_error_dropped_by_Get_only (s : State) (f g : closer_fn) (h : handle) :
  (forall c w, snd (f c w) = snd (g c w)) ->
  Get (set_close (Some g) s) =
    on_state (set_close (Some g)) (Get (set_close (Some f) s)) /\
  (exists s', Close (Some h) (set_close (Some f) s) =
     Returns (fst (f (Some h) (world s))) s') /\
  (conns (pool s) = None \/
   (exists ch, conns (pool s) = Some ch /\ chan_cap ch <= len_chan ch) ->
   Put (Some h) (set_close (Some f) s) = Close (Some h) (set_close (Some f) s) /\
   exists s', Put (Some h) (set_close (Some f) s) =
     Returns (fst (f (Some h) (world s))) s').
Proof.
  intros Hfg.
  assert (HClose : exists s', Close (Some h) (set_close (Some f) s) =
            Returns (fst (f (Some h) (world s))) s').
  { rewrite (Close_closer h (set_close (Some f) s) f eq_refl). eexists. reflexivity. }
  split; [|split; [exact HClose|]].
  - destruct (conns (pool s)) as [ch|] eqn:Hc.
    + rewrite (Get_open (set_close (Some g) s) ch Hc).
      rewrite (Get_open (set_close (Some f) s) ch Hc).
      now apply Get_loop_closer_indep.
    + rewrite (Get_closed (set_close (Some g) s) Hc).
      rewrite (Get_closed (set_close (Some f) s) Hc). reflexivity.
  - intros Hroute.
    assert (HPut : Put (Some h) (set_close (Some f) s) =
                   Close (Some h) (set_close (Some f) s)).
    { destruct Hroute as [Hc | (ch & Hc & Hfull)].
      - now apply Put_closed.
      - now apply (Put_full _ ch). }
    split; [exact HPut|]. rewrite HPut. exact HClose.
Qed.

(** The drain of [Release] calls the function it read from [close] without
    a nil test: with no closer and a non-empty buffer it panics. *)
Lemma Release_nil_closer_panics (s : State) (ch : chan) :
  conns (pool s) = Some ch ->
  chan_buf ch <> [] ->
  close (pool s) = None ->
  exists s', Release s = Panics s'.
Proof.
  intros Hc Hb Hcl. unfold Release, bind, gets, modify. rewrite Hc, Hcl.
  destruct (chan_buf ch) as [|[wc|] q]; [contradiction| |]; eexists; reflexivity.
Qed.

End Properties.

(** C10. The pool of [benchmarkPoolGetRemove] ([MaxCap = 10], [Close: nil],
    [IdleTimeout] 15 s) with one resource released into it: the buffer
    holds one entry, the closer is nil, and [Release] panics instead of
    returning. *)
Theorem Release_without_closer_panics :
  buffer noCloserState = [Some {| conn := Some 1%nat; t := 0 |}] /\
  close (pool noCloserState) = None /\
  Release noCloserState =
  Panics {| pool := {| conns := None; factory := None; close := None;
                       idleTimeout := 15 * second;
                       stats := {| Hits := 0; Misses := 0; TotalConns := 0 |} |};
            world := simWorld 0 0; trace := [] |}.
Proof. repeat split. Qed.

(** ** The theorems at concrete pools *)

Lemma Put_then_Get_returns_same_witness :
  exists s1 s2,
    Put (Some 7%nat) reuseState = Returns None s1 /\
    Get (set_world (simWorld (5 * second) 0) s1) = Returns (Some 7%nat, None) s2 /\
    Hits (stats (pool s2)) = AddUint32 (Hits (stats (pool reuseState))) 1 /\
    (0 <= Hits (stats (pool reuseState)) < uint32_modulus - 1 ->
     Hits (stats (pool s2)) = Hits (stats (pool reuseState)) + 1) /\
    Misses (stats (pool s2)) = Misses (stats (pool reuseState)) /\
    trace s2 = trace reuseState /\
    buffer s2 = [].
Proof.
  apply (Put_then_Get_returns_same reuseState {| chan_cap := 1; chan_buf := [] |}
           7%nat (simWorld (5 * second) 0)).
  - reflexivity.
  - reflexivity.
  - reflexivity.
  - right. vm_compute. discriminate.
Defined.

Lemma Get_empty_calls_factory_witness :
  exists s', Get reuseState = Returns (Some 1%nat, None) s' /\
    Misses (stats (pool s')) = 1 /\
    trace s' = [EvFactory].
Proof.
  destruct (Get_empty_calls_factory reuseState {| chan_cap := 1; chan_buf := [] |}
              dummyDialer (Some 1%nat) None (simWorld 0 1)
              eq_refl eq_refl eq_refl eq_refl) as [Hok _].
  destruct (Hok eq_refl) as (s' & HG & HM & _ & _ & _ & HT).
  exists s'. split; [exact HG|]. split; [exact HM | exact HT].
Defined.



Lemma Release_closes_each_entry_once_witness :
  exists s' evs,
    Release fiveState = Returns tt s' /\
    trace s' = trace fiveState ++ evs /\
    evs = map EvClose fiveResources /\
    length evs = 5%nat /\
    (NoDup fiveResources -> NoDup evs) /\
    world s' = closed_world okCloser fiveResources (world fiveState) /\
    shut s'.
Proof.
  apply (Release_closes_each_entry_once fiveState
           {| chan_cap := 5;
              chan_buf := map Some (map (fun c => {| conn := c; t := 0 |}) fiveResources) |}
           okCloser (map (fun c => {| conn := c; t := 0 |}) fiveResources)).
  - reflexivity.
  - reflexivity.
  - reflexivity.
Defined.

Lemma closer_error_dropped_by_Get_only_witness :
  Get (set_close (Some okCloser) staleState) =
    on_state (set_close (Some okCloser)) (Get (set_close (Some badCloser) staleState)) /\
  (exists s', Close (Some 9%nat) (set_close (Some badCloser) staleState) =
     Returns (Some (Foreign 3)) s').
Proof.
  destruct (closer_error_dropped_by_Get_only staleState badCloser okCloser 9%nat
              (fun c w => eq_refl)) as (HG & HC & _).
  split; [exact HG | exact HC].
Defined.

(** ** Further properties of the code *)

(** *** The busy list *)

Lemma popBusy_snoc (busy : list (option idleConn)) (cn : option idleConn) :
  popBusy (busy ++ [cn]) = (cn, busy).
Proof.
  unfold popBusy. rewrite length_app. cbn [length].
  replace (length busy + 1)%nat with (S (length busy)) by lia.
  cbn [Nat.eqb]. replace (S (length busy) - 1)%nat with (length busy) by lia.
  rewrite nth_middle. f_equal.
  rewrite firstn_app, firstn_all, Nat.sub_diag. cbn. apply app_nil_r.
Qed.

Lemma pushBusyAll_non_nil (cns busy : list (option idleConn)) :
  Forall (fun cn => cn <> None) cns -> pushBusyAll cns busy = busy ++ cns.
Proof.
  intros H. revert busy. induction H as [|cn cns Hcn _ IH]; intros busy.
  - cbn. now rewrite app_nil_r.
  - cbn [pushBusyAll fold_left]. fold (pushBusyAll cns (pushBusy cn busy)).
    rewrite IH. destruct cn; [|contradiction]. cbn. now rewrite <- app_assoc.
Qed.

(** X11. The busy list is a stack: after non-nil entries [cns] have been pushed
    one by one, as many [popBusy] calls return them last pushed first and
    leave the list as it was before the pushes; [BusyLen] has grown by their
    number in between. *)
Theorem popBusy_returns_pushed_in_reverse (cns busy : list (option idleConn)) :
  Forall (fun cn => cn <> None) cns ->
  popBusyN (length cns) (pushBusyAll cns busy) = (rev cns, busy) /\
  BusyLen (pushBusyAll cns busy) = BusyLen busy + Z.of_nat (length cns).
Proof.
  intros H. rewrite (pushBusyAll_non_nil cns busy H). split.
  - clear H. induction cns as [|cn cns IH] using rev_ind;
      [now rewrite app_nil_r|].
    rewrite length_app, rev_app_distr, app_assoc. cbn [length rev app].
    replace (length cns + 1)%nat with (S (length cns)) by lia.
    cbn [popBusyN]. rewrite popBusy_snoc, IH. reflexivity.
  - unfold BusyLen. rewrite length_app. lia.
Qed.

(** X12. [popBusy] on the empty list returns nil and [pushBusy(nil)] adds
    nothing; on a list of non-nil pointers, [popBusy] returns nil only when
    the list is empty, and otherwise shortens it by one. *)
Theorem popBusy_nil_iff_empty (busy : list (option idleConn)) :
  Forall (fun cn => cn <> None) busy ->
  popBusy [] = (None, []) /\
  pushBusy None busy = busy /\
  (fst (popBusy busy) = None <-> busy = []) /\
  (busy <> [] -> BusyLen (snd (popBusy busy)) = BusyLen busy - 1).
Proof.
  intros H. repeat split.
  - destruct busy as [|cn busy _] using rev_ind; [reflexivity|].
    rewrite popBusy_snoc. cbn. intros ->.
    apply Forall_app in H. destruct H as [_ H]. inversion H. contradiction.
  - now intros ->.
  - destruct busy as [|cn busy _] using rev_ind; [contradiction|].
    intros _. rewrite popBusy_snoc. unfold BusyLen. cbn [snd].
    rewrite length_app. cbn [length]. lia.
Qed.

(** *** The pool *)

Section MoreProperties.
Context `{Env : Environment}.


Lemma Get_loop_suffix (q : list (option idleConn)) (s : State) (ch : chan) :
  conns (pool s) = Some ch ->
  chan_buf ch = q ->
  exists l ch',
    conns (pool (final (Get_loop q s))) = Some ch' /\
    chan_cap ch' = chan_cap ch /\
    q = l ++ chan_buf ch' /\
    (chan_buf ch' = [] \/ l <> []) /\
    idleTimeout (pool (final (Get_loop q s))) = idleTimeout (pool s).
Proof.
  revert s ch. induction q as [|[wc|] q IH]; intros s ch Hc Hb.
  - exists [], ch. rewrite Get_loop_default.
    destruct (factory (pool s)) as [f|];
      [cbn zeta; destruct (snd (fst (f (world s))))|];
      cbn; rewrite Hc, Hb; repeat split; now left.
  - assert (Hcq : conns (pool (set_buf q s)) =
                  Some {| chan_cap := chan_cap ch; chan_buf := q |})
      by apply set_buf_conns, Hc.
    destruct (set_buf_frame q s) as (_ & _ & _ & Htoq & _).
    destruct ((0 <? idleTimeout (pool s)) &&
              Time_Before (Time_Add (t wc) (idleTimeout (pool s))) (clock (world s)))
      eqn:Htest.
    + apply stale_test_spec in Htest. rewrite (Get_loop_stale wc q s Htest).
      destruct (Close_returns (conn wc) (set_buf q s)) as (e & sa & He & Hp & _).
      rewrite (bind_Returns _ _ _ _ _ He).
      destruct (IH sa _ ltac:(rewrite Hp; exact Hcq) eq_refl)
        as (l & ch' & H1 & H2 & H3 & H4 & H5).
      exists (Some wc :: l), ch'. rewrite H1, H5, Hp, Htoq. cbn [app].
      rewrite <- H3. repeat split; try assumption. right. discriminate.
    + apply fresh_test_spec in Htest. rewrite (Get_loop_fresh wc q s Htest).
      exists [Some wc], {| chan_cap := chan_cap ch; chan_buf := q |}.
      cbn [final]. change (pool (add_Hits (set_buf q s))) with
        (with_stats {| Hits := AddUint32 (Hits (stats (pool (set_buf q s)))) 1;
                       Misses := Misses (stats (pool (set_buf q s)));
                       TotalConns := TotalConns (stats (pool (set_buf q s))) |}
                    (pool (set_buf q s))).
      cbn [with_stats conns idleTimeout]. rewrite Hcq, Htoq.
      repeat split. right. discriminate.
  - assert (Hcq : conns (pool (set_buf q s)) =
                  Some {| chan_cap := chan_cap ch; chan_buf := q |})
      by apply set_buf_conns, Hc.
    destruct (set_buf_frame q s) as (_ & _ & _ & Htoq & _).
    rewrite Get_loop_skip.
    destruct (IH (set_buf q s) _ Hcq eq_refl) as (l & ch' & H1 & H2 & H3 & H4 & H5).
    exists (None :: l), ch'. rewrite H1, H5, Htoq. cbn [app]. rewrite <- H3.
    repeat split; try assumption. right. discriminate.
Qed.

Lemma Get_suffix (s : State) (ch : chan) :
  conns (pool s) = Some ch ->
  exists l ch',
    conns (pool (final (Get s))) = Some ch' /\
    chan_cap ch' = chan_cap ch /\
    chan_buf ch = l ++ chan_buf ch' /\
    (chan_buf ch' = [] \/ l <> []) /\
    idleTimeout (pool (final (Get s))) = idleTimeout (pool s).
Proof.
  intros Hc. rewrite (Get_open s ch Hc). now apply Get_loop_suffix.
Qed.

(** X3. [Get] on an open pool only takes entries from the head of the buffer:
    what is left is a suffix of what was there, in a channel of the same
    capacity; either at least one entry was taken or the buffer is empty
    afterwards; the idle timeout is unchanged. *)
Theorem Get_pops_from_head (s : State) (ch : chan) :
  conns (pool s) = Some ch ->
  exists l ch',
    conns (pool (final (Get s))) = Some ch' /\
    chan_cap ch' = chan_cap ch /\
    chan_buf ch = l ++ chan_buf ch' /\
    (chan_buf ch' = [] \/ l <> []) /\
    idleTimeout (pool (final (Get s))) = idleTimeout (pool s).
Proof. exact (Get_suffix s ch). Qed.

Lemma Get_loop_counts (q : list (option idleConn)) (s : State) :
  match Get_loop q s with
  | Returns (c, None) s' =>
      (Hits (stats (pool s')) = AddUint32 (Hits (stats (pool s))) 1 /\
       Misses (stats (pool s')) = Misses (stats (pool s))) \/
      (Hits (stats (pool s')) = Hits (stats (pool s)) /\
       Misses (stats (pool s')) = AddUint32 (Misses (stats (pool s))) 1)
  | Returns (c, Some e) s' => c = None /\ stats (pool s') = stats (pool s)
  | Panics s' => stats (pool s') = stats (pool s)
  end.
Proof.
  revert s. induction q as [|[wc|] q IH]; intros s.
  - rewrite Get_loop_default.
    destruct (factory (pool s)) as [f|]; [|reflexivity].
    cbn zeta. destruct (snd (fst (f (world s)))); [now split|].
    right. split; reflexivity.
  - destruct (set_buf_frame q s) as (_ & _ & Hsq & _).
    destruct ((0 <? idleTimeout (pool s)) &&
              Time_Before (Time_Add (t wc) (idleTimeout (pool s))) (clock (world s)))
      eqn:Htest.
    + apply stale_test_spec in Htest. rewrite (Get_loop_stale wc q s Htest).
      destruct (Close_returns (conn wc) (set_buf q s)) as (e & sa & He & Hp & _).
      rewrite (bind_Returns _ _ _ _ _ He).
      specialize (IH sa). rewrite Hp, Hsq in IH. exact IH.
    + apply fresh_test_spec in Htest. rewrite (Get_loop_fresh wc q s Htest).
      left. cbn [add_Hits set_pool with_stats pool stats Hits Misses].
      rewrite Hsq. split; reflexivity.
  - destruct (set_buf_frame q s) as (_ & _ & Hsq & _).
    rewrite Get_loop_skip. specialize (IH (set_buf q s)). rewrite Hsq in IH. exact IH.
Qed.

Lemma Get_counts (s : State) :
  match Get s with
  | Returns (c, None) s' =>
      (Hits (stats (pool s')) = AddUint32 (Hits (stats (pool s))) 1 /\
       Misses (stats (pool s')) = Misses (stats (pool s))) \/
      (Hits (stats (pool s')) = Hits (stats (pool s)) /\
       Misses (stats (pool s')) = AddUint32 (Misses (stats (pool s))) 1)
  | Returns (c, Some e) s' => c = None /\ stats (pool s') = stats (pool s)
  | Panics s' => stats (pool s') = stats (pool s)
  end.
Proof.
  destruct (conns (pool s)) as [ch|] eqn:Hc.
  - rewrite (Get_open s ch Hc). apply Get_loop_counts.
  - rewrite (Get_closed s Hc). now split.
Qed.


(** X6. [Put] always returns.  When it returns an error the pool is as it was
    (nothing was buffered), and the error is the nil-resource error for a
    nil resource and what the configured closer returned otherwise. *)
Theorem Put_error_origin (c : iface) (s : State) :
  exists e s',
    Put c s = Returns e s' /\
    forall err, e = Some err ->
      pool s' = pool s /\
      (c = None -> err = ErrNilConn /\ s' = s) /\
      (c <> None ->
       exists f, close (pool s) = Some f /\ fst (f c (world s)) = Some err).
Proof.
  destruct c as [h|].
  - assert (HClose : exists e s', Close (Some h) s = Returns e s' /\
              forall err, e = Some err ->
                pool s' = pool s /\
                (Some h = None -> err = ErrNilConn /\ s' = s) /\
                (Some h <> None ->
                 exists f, close (pool s) = Some f /\
                   fst (f (Some h) (world s)) = Some err)).
    { destruct (close (pool s)) as [f|] eqn:Hcl.
      - rewrite (Close_closer h s f Hcl). eexists _, _. split; [reflexivity|].
        intros err Herr. split; [reflexivity|]. split; [discriminate|].
        intros _. now exists f.
      - rewrite (Close_no_closer h s Hcl). eexists _, _. split; [reflexivity|].
        discriminate. }
    destruct (conns (pool s)) as [ch|] eqn:Hc.
    + destruct (Z_lt_le_dec (len_chan ch) (chan_cap ch)) as [Hlt|Hge].
      * rewrite (Put_room s ch h Hc Hlt). eexists _, _. split; [reflexivity|].
        discriminate.
      * rewrite (Put_full s ch _ Hc Hge). exact HClose.
    + rewrite (Put_closed s _ Hc). exact HClose.
  - rewrite Put_nil. eexists _, _. split; [reflexivity|].
    intros err [= <-]. split; [reflexivity|]. split; [now split|]. contradiction.
Qed.

(** X7. The body of the benchmark loop, run alone: on an open pool of positive
    capacity whose buffer is within it, a resource that [Get] returned came
    with a nil error, and [Put] of it finds room: it returns nil and the
    resource is the last entry of the buffer, stamped with the current
    time. *)
Theorem Get_then_Put_is_buffered (s s1 : State) (ch : chan) (h : handle) (e : error) :
  conns (pool s) = Some ch ->
  0 < chan_cap ch ->
  len_chan ch <= chan_cap ch ->
  Get s = Returns (Some h, e) s1 ->
  e = None /\
  Put (Some h) s1 =
    Returns None (set_buf (buffer s1 ++ [idle_entry (clock (world s1)) (Some h)]) s1) /\
  Len (pool s1) < chan_cap ch.
Proof.
  intros Hc Hpos Hle HG.
  destruct (Get_suffix s ch Hc) as (l & ch' & Hc' & Hcap & Hb & Hcase & _).
  rewrite HG in Hc'. cbn [final] in Hc'.
  assert (He : e = None).
  { pose proof (Get_counts s) as Hn. rewrite HG in Hn.
    destruct e as [err|]; [|reflexivity]. destruct Hn as [Hn _]. discriminate. }
  assert (Hroom : len_chan ch' < chan_cap ch').
  { rewrite Hcap. unfold len_chan in *. rewrite Hb, length_app in Hle.
    destruct Hcase as [Hnil | Hl].
    - rewrite Hnil. cbn. exact Hpos.
    - destruct l; [contradiction|]. cbn [length] in Hle. lia. }
  split; [exact He|]. split.
  - rewrite (Put_room s1 ch' h Hc' Hroom). unfold buffer. now rewrite Hc'.
  - unfold Len, getConns. rewrite Hc', <- Hcap. exact Hroom.
Qed.

Lemma Release_shut (s : State) : shut s -> Release s = Returns tt s.
Proof.
  destruct s as [[cs fa cl ti st] w tr]. unfold shut. cbn.
  intros (-> & -> & ->). reflexivity.
Qed.

Lemma Release_keeps (s : State) :
  stats (pool (final (Release s))) = stats (pool s) /\
  idleTimeout (pool (final (Release s))) = idleTimeout (pool s).
Proof.
  unfold Release, bind, gets, modify, ret.
  destruct (conns (pool s)) as [ch|]; cbn; [|now split].
  rewrite drain_pool. now split.
Qed.

(** X10. [Release] is idempotent: called again on the pool it left (whether it
    returned or panicked), it returns at once and changes nothing, so no
    closer is called a second time.  [Release] keeps the two counters; on
    the released pool [Len] is 0 and [Stats] reports the counters with
    [TotalConns] 0. *)
Theorem Release_twice_is_Release (s : State) :
  Release (final (Release s)) = Returns tt (final (Release s)) /\
  Len (pool (final (Release s))) = 0 /\
  PoolStats (pool (final (Release s))) =
    {| Hits := Hits (stats (pool s)); Misses := Misses (stats (pool s));
       TotalConns := 0 |}.
Proof.
  pose proof (Release_shuts s) as Hs. destruct (Release_keeps s) as (Hst & _).
  split; [now apply Release_shut|].
  destruct Hs as (Hc & _). unfold PoolStats, Len, getConns. rewrite Hc, Hst.
  split; reflexivity.
Qed.

(** *** What holds of every pool in use *)





(** *** Queue order and staleness *)

Lemma set_buf_same (s : State) (ch : chan) :
  conns (pool s) = Some ch -> set_buf (chan_buf ch) s = s.
Proof.
  destruct s as [[cs fa cl ti st] w tr]. cbn. intros ->. now destruct ch.
Qed.

Lemma Puts_room (cs : list iface) (s : State) (ch : chan) :
  conns (pool s) = Some ch ->
  len_chan ch + Z.of_nat (length cs) <= chan_cap ch ->
  Forall (fun c => c <> None) cs ->
  Puts cs s =
  Returns (repeat None (length cs))
          (set_buf (chan_buf ch ++ map (idle_entry (clock (world s))) cs) s).
Proof.
  revert s ch. induction cs as [|c cs IH]; intros s ch Hc Hle Hnn.
  - cbn. now rewrite app_nil_r, (set_buf_same s ch Hc).
  - inversion Hnn as [|c0 cs0 Hc0 Hnn']; subst. destruct c as [h|]; [|contradiction].
    cbn [length] in Hle. cbn [Puts].
    rewrite (bind_Returns _ _ _ _ _ (Put_room s ch h Hc ltac:(lia))).
    set (sa := set_buf (chan_buf ch ++ [idle_entry (clock (world s)) (Some h)]) s).
    assert (Hca : conns (pool sa) =
              Some {| chan_cap := chan_cap ch;
                      chan_buf := chan_buf ch ++ [idle_entry (clock (world s)) (Some h)] |})
      by apply set_buf_conns, Hc.
    assert (Hwa : world sa = world s) by apply set_buf_frame.
    rewrite (bind_Returns _ _ _ _ _ (IH sa _ Hca
               ltac:(unfold len_chan in *; cbn [chan_buf chan_cap];
                     rewrite length_app; cbn [length]; lia) Hnn')).
    cbn [chan_buf]. unfold sa at 2. rewrite set_buf_twice, Hwa, <- app_assoc.
    reflexivity.
Qed.

Lemma Gets_fresh (ws : list idleConn) (s : State) (ch : chan) :
  conns (pool s) = Some ch ->
  chan_buf ch = map Some ws ->
  idleTimeout (pool s) <= 0 \/
    Forall (fun wc => age (clock (world s)) wc <= idleTimeout (pool s)) ws ->
  exists s',
    Gets (length ws) s = Returns (map (fun wc => (conn wc, None)) ws) s' /\
    buffer s' = [] /\ trace s' = trace s /\ world s' = world s.
Proof.
  revert s ch. induction ws as [|wc ws IH]; intros s ch Hc Hb Hfresh.
  - exists s. split; [reflexivity|]. unfold buffer. rewrite Hc, Hb. now repeat split.
  - assert (Hwc : idleTimeout (pool s) <= 0 \/
                  age (clock (world s)) wc <= idleTimeout (pool s)).
    { destruct Hfresh as [H|H]; [now left | right; now inversion H]. }
    assert (HG : Get s = Returns (conn wc, None) (add_Hits (set_buf (map Some ws) s))).
    { rewrite (Get_open s ch Hc), Hb. apply (Get_loop_fresh wc _ s Hwc). }
    destruct (set_buf_frame (map Some ws) s) as (Hw & Ht & _ & Hto & _).
    destruct (IH (add_Hits (set_buf (map Some ws) s))
                {| chan_cap := chan_cap ch; chan_buf := map Some ws |})
      as (s' & HGs & Hbuf & Htr & Hwo).
    + cbn [add_Hits set_pool with_stats pool conns]. apply set_buf_conns, Hc.
    + reflexivity.
    + cbn [add_Hits set_pool with_stats pool idleTimeout world]. rewrite Hto, Hw.
      destruct Hfresh as [H|H]; [now left | right; now inversion H].
    + exists s'. cbn [length Gets map].
      rewrite (bind_Returns _ _ _ _ _ HG), (bind_Returns _ _ _ _ _ HGs).
      split; [reflexivity|]. split; [exact Hbuf|].
      rewrite Htr, Hwo. cbn [add_Hits set_pool trace world]. now split.
Qed.

(** X8. The buffer is a queue.  Resources released one after the other into an
    empty open pool that has room for all of them are each buffered ([Put]
    returns nil); as many [Get] calls afterwards, at a time when none is
    stale (eviction disabled, or at most the idle timeout elapsed), return
    the same resources in the order of their release, with nil errors,
    without any factory or closer call, and leave the buffer empty. *)
Theorem Puts_then_Gets_fifo (cs : list iface) (s : State) (ch : chan) (w' : World) :
  conns (pool s) = Some ch ->
  chan_buf ch = [] ->
  Z.of_nat (length cs) <= chan_cap ch ->
  Forall (fun c => c <> None) cs ->
  idleTimeout (pool s) <= 0 \/ clock w' - clock (world s) <= idleTimeout (pool s) ->
  exists s1 s2,
    Puts cs s = Returns (repeat None (length cs)) s1 /\
    Gets (length cs) (set_world w' s1) = Returns (map (fun c => (c, None)) cs) s2 /\
    buffer s2 = [] /\
    trace s2 = trace s.
Proof.
  intros Hc Hb Hle Hnn Hfresh.
  assert (Hroom : len_chan ch + Z.of_nat (length cs) <= chan_cap ch)
    by (unfold len_chan; rewrite Hb; cbn; lia).
  rewrite (Puts_room cs s ch Hc Hroom Hnn), Hb. cbn [app].
  set (now := clock (world s)).
  set (ws := map (fun c => {| conn := c; t := now |}) cs).
  assert (Hmap : map (idle_entry now) cs = map Some ws)
    by (unfold ws; rewrite map_map; reflexivity).
  rewrite Hmap. set (s1 := set_buf (map Some ws) s).
  destruct (set_buf_frame (map Some ws) s) as (_ & Ht & _ & Hto & _). fold s1 in Ht, Hto.
  destruct (Gets_fresh ws (set_world w' s1)
              {| chan_cap := chan_cap ch; chan_buf := map Some ws |})
    as (s2 & HG & Hbuf & Htr & _).
  - cbn [set_world pool]. apply set_buf_conns, Hc.
  - reflexivity.
  - cbn [set_world pool world]. rewrite Hto.
    destruct Hfresh as [H|H]; [now left | right].
    unfold ws. apply Forall_map. apply Forall_forall. intros c _.
    unfold age. cbn [t]. exact H.
  - exists s1, s2. split; [reflexivity|].
    assert (Hlen : length ws = length cs) by (unfold ws; apply length_map).
    assert (Hres : map (fun wc => (conn wc, @None goerror)) ws =
                   map (fun c => (c, @None goerror)) cs)
      by (unfold ws; rewrite map_map; reflexivity).
    rewrite <- Hlen, <- Hres. split; [exact HG|]. split; [exact Hbuf|].
    rewrite Htr. cbn [set_world trace]. exact Ht.
Qed.

(** X9. A released resource that has gone stale is closed and replaced.  On an
    open pool with an empty buffer, a closer, a factory and a positive idle
    timeout, [Put(r)] buffers [r]; a [Get] more than the timeout later calls
    the closer on [r], then the factory (in the world the closer left), and
    returns what the factory returned: its resource with a nil error and
    [Misses] one higher, or a nil resource with its error.  [Hits] is
    unchanged and the buffer is empty. *)
Theorem Put_then_late_Get_replaces (s : State) (ch : chan) (r : handle) (w' : World)
    (f : closer_fn) (fct : factory_fn) :
  conns (pool s) = Some ch ->
  chan_buf ch = [] ->
  0 < chan_cap ch ->
  close (pool s) = Some f ->
  factory (pool s) = Some fct ->
  0 < idleTimeout (pool s) ->
  idleTimeout (pool s) < clock w' - clock (world s) ->
  let made := fct (snd (f (Some r) w')) in
  exists s1 s2,
    Put (Some r) s = Returns None s1 /\
    Get (set_world w' s1) =
      Returns (match snd (fst made) with
               | Some e => (None, Some e)
               | None => (fst (fst made), None)
               end) s2 /\
    trace s2 = trace s ++ [EvClose (Some r); EvFactory] /\
    world s2 = snd made /\
    buffer s2 = [] /\
    Hits (stats (pool s2)) = Hits (stats (pool s)) /\
    (snd (fst made) = None ->
     Misses (stats (pool s2)) = AddUint32 (Misses (stats (pool s))) 1).
Proof.
  intros Hc Hb Hpos Hcl Hfa Hto Hlate made.
  assert (Hroom : len_chan ch < chan_cap ch)
    by (unfold len_chan; rewrite Hb; cbn; lia).
  rewrite (Put_room s ch r Hc Hroom), Hb. cbn [app]. unfold idle_entry.
  set (wc := {| conn := Some r; t := clock (world s) |}).
  set (s1 := set_buf [Some wc] s).
  destruct (set_buf_frame [Some wc] s) as (_ & Ht1 & Hst1 & Hto1 & Hfa1 & Hcl1).
  fold s1 in Ht1, Hst1, Hto1, Hfa1, Hcl1.
  assert (Hc1 : conns (pool (set_world w' s1)) =
                Some {| chan_cap := chan_cap ch; chan_buf := [Some wc] |})
    by (cbn [set_world pool]; apply set_buf_conns, Hc).
  assert (Hstale : is_stale (idleTimeout (pool (set_world w' s1)))
                     (clock (world (set_world w' s1))) wc).
  { cbn [set_world pool world]. rewrite Hto1. unfold is_stale, age.
    change (t wc) with (clock (world s)). lia. }
  set (s1' := set_buf [] (set_world w' s1)).
  destruct (set_buf_frame [] (set_world w' s1)) as (Hw2 & Ht2 & Hst2 & _ & Hfa2 & Hcl2).
  fold s1' in Hw2, Ht2, Hst2, Hfa2, Hcl2.
  cbn [set_world pool world trace] in Hw2, Ht2, Hst2, Hfa2, Hcl2.
  assert (HCl : Close (Some r) s1' =
                Returns (fst (f (Some r) w'))
                  (set_world (snd (f (Some r) w')) (log (EvClose (Some r)) s1'))).
  { rewrite (Close_closer r s1' f) by (rewrite Hcl2, Hcl1; exact Hcl).
    now rewrite Hw2. }
  assert (Hbuf : buffer s1' = []) by (unfold s1'; apply (buffer_set_buf _ _ [] Hc1)).
  set (sX := set_world (snd made)
               (log EvFactory
                  (set_world (snd (f (Some r) w')) (log (EvClose (Some r)) s1')))).
  assert (HGet : Get (set_world w' s1) =
            match snd (fst made) with
            | Some e => Returns (None, Some e) sX
            | None => Returns (fst (fst made), None) (add_Misses sX)
            end).
  { rewrite (Get_open _ _ Hc1). cbn [chan_buf].
    rewrite (Get_loop_stale wc [] _ Hstale). fold s1'.
    change (conn wc) with (Some r).
    rewrite (bind_Returns _ _ _ _ _ HCl), Get_loop_default.
    cbn [set_world log pool world]. rewrite Hfa2, Hfa1, Hfa. reflexivity. }
  assert (HtX : trace sX = trace s ++ [EvClose (Some r); EvFactory]).
  { unfold sX. cbn [set_world log trace]. now rewrite Ht2, Ht1, <- app_assoc. }
  assert (HsX : stats (pool sX) = stats (pool s)).
  { unfold sX. cbn [set_world log pool]. now rewrite Hst2, Hst1. }
  destruct (snd (fst made)) as [e|].
  - exists s1, sX. split; [reflexivity|]. split; [exact HGet|].
    rewrite HsX. repeat split; [exact HtX | exact Hbuf | discriminate].
  - exists s1, (add_Misses sX). split; [reflexivity|]. split; [exact HGet|].
    cbn [add_Misses set_pool with_stats trace world pool stats Hits Misses].
    rewrite HsX. repeat split; [exact HtX | exact Hbuf].
Qed.

(** *** Counting *)

Lemma uint32_sum_step (a b k : Z) :
  (a + b) mod uint32_modulus = (k + 1) mod uint32_modulus ->
  forall n, (a + b + n) mod uint32_modulus = (k + (1 + n)) mod uint32_modulus.
Proof.
  intros H n. rewrite <- Z.add_mod_idemp_l, H, Z.add_mod_idemp_l;
    [f_equal; lia | discriminate | discriminate].
Qed.

(** X5. [Hits + Misses] counts the successful [Get] calls: after [n] calls of
    [Get] in a row have returned, the sum of the two counters has grown,
    modulo 2^32, by the number of calls that returned a nil error. *)
Theorem Gets_counted_by_Hits_and_Misses (n : nat) (s s' : State)
    (rs : list (iface * error)) :
  Gets n s = Returns rs s' ->
  length rs = n /\
  (Hits (stats (pool s')) + Misses (stats (pool s'))) mod uint32_modulus =
  (Hits (stats (pool s)) + Misses (stats (pool s)) + Z.of_nat (nil_errors rs))
    mod uint32_modulus.
Proof.
  revert s s' rs. induction n as [|n IH]; intros s s' rs H.
  - cbn in H. inversion H; subst. split; [reflexivity|]. f_equal. cbn. lia.
  - cbn [Gets] in H. unfold bind at 1 in H.
    pose proof (Get_counts s) as Hcnt.
    destruct (Get s) as [[c e] sa|sa]; [|discriminate].
    unfold bind at 1 in H. destruct (Gets n sa) as [rs0 sb|sb] eqn:HG; [|discriminate].
    inversion H; subst. destruct (IH _ _ _ HG) as (Hlen & Hsum).
    split; [cbn; now rewrite Hlen|]. rewrite Hsum. unfold nil_errors in *.
    cbn [filter snd]. destruct e as [err|].
    + destruct Hcnt as (_ & ->). reflexivity.
    + cbn [length]. rewrite Nat2Z.inj_succ, <- Z.add_1_l.
      set (k := Z.of_nat _).
      rewrite Z.add_assoc, <- (Z.add_assoc _ 1 k).
      apply uint32_sum_step.
      destruct Hcnt as [(-> & ->) | (-> & ->)]; unfold AddUint32.
      * rewrite Z.add_mod_idemp_l by discriminate. f_equal. lia.
      * rewrite Z.add_mod_idemp_r by discriminate. f_equal. lia.
Qed.

End MoreProperties.

(** ** The further properties at concrete pools *)

Lemma popBusy_returns_pushed_in_reverse_witness :
  popBusyN 2 (pushBusyAll [busyA; busyB] []) = ([busyB; busyA], []) /\
  BusyLen (pushBusyAll [busyA; busyB] []) = 2.
Proof.
  apply (popBusy_returns_pushed_in_reverse [busyA; busyB] []).
  repeat constructor; discriminate.
Defined.

Lemma popBusy_nil_iff_empty_witness :
  popBusy [] = (None, []) /\
  pushBusy None [busyA] = [busyA] /\
  (fst (popBusy [busyA]) = None <-> [busyA] = []) /\
  ([busyA] <> [] -> BusyLen (snd (popBusy [busyA])) = BusyLen [busyA] - 1).
Proof.
  apply (popBusy_nil_iff_empty [busyA]).
  repeat constructor; discriminate.
Defined.

Lemma Get_pops_from_head_witness :
  exists l ch',
    conns (pool (final (Get staleState))) = Some ch' /\
    chan_cap ch' = 10 /\
    [Some {| conn := Some 5%nat; t := 0 |}] = l ++ chan_buf ch' /\
    (chan_buf ch' = [] \/ l <> []) /\
    idleTimeout (pool (final (Get staleState))) = 10.
Proof.
  apply (Get_pops_from_head staleState
           {| chan_cap := 10; chan_buf := [Some {| conn := Some 5%nat; t := 0 |}] |}).
  reflexivity.
Defined.

Lemma Get_then_Put_is_buffered_witness :
  @None goerror = None /\
  Put (Some 1%nat) (final (Get reuseState)) =
    Returns None
      (set_buf (buffer (final (Get reuseState)) ++
                [idle_entry (clock (world (final (Get reuseState)))) (Some 1%nat)])
               (final (Get reuseState))) /\
  Len (pool (final (Get reuseState))) < 1.
Proof.
  apply (Get_then_Put_is_buffered reuseState (final (Get reuseState))
           {| chan_cap := 1; chan_buf := [] |} 1%nat None).
  - reflexivity.
  - reflexivity.
  - vm_compute. discriminate.
  - reflexivity.
Defined.

Lemma Puts_then_Gets_fifo_witness :
  exists s1 s2,
    Puts fiveResources queueState = Returns (repeat None 5) s1 /\
    Gets 5 (set_world (simWorld 7 0) s1) =
      Returns (map (fun c => (c, None)) fiveResources) s2 /\
    buffer s2 = [] /\
    trace s2 = trace queueState.
Proof.
  apply (Puts_then_Gets_fifo fiveResources queueState
           {| chan_cap := 5; chan_buf := [] |} (simWorld 7 0)).
  - reflexivity.
  - reflexivity.
  - vm_compute. discriminate.
  - repeat constructor; discriminate.
  - left. vm_compute. discriminate.
Defined.

Lemma Put_then_late_Get_replaces_witness :
  exists s1 s2,
    Put (Some 5%nat) shortLivedState = Returns None s1 /\
    Get (set_world (simWorld 20 0) s1) = Returns (Some 1%nat, None) s2 /\
    trace s2 = [EvClose (Some 5%nat); EvFactory] /\
    world s2 = simWorld 20 1 /\
    buffer s2 = [] /\
    Hits (stats (pool s2)) = 0 /\
    (@None goerror = None -> Misses (stats (pool s2)) = 1).
Proof.
  apply (Put_then_late_Get_replaces shortLivedState
           {| chan_cap := 10; chan_buf := [] |} 5%nat (simWorld 20 0)
           badCloser dummyDialer).
  - reflexivity.
  - reflexivity.
  - reflexivity.
  - reflexivity.
  - reflexivity.
  - reflexivity.
  - reflexivity.
Defined.

Lemma Gets_counted_by_Hits_and_Misses_witness :
  length [(Some 1%nat, @None goerror); (Some 2%nat, None)] = 2%nat /\
  (Hits (stats (pool (final (Gets 2 reuseState)))) +
   Misses (stats (pool (final (Gets 2 reuseState))))) mod uint32_modulus =
  (Hits (stats (pool reuseState)) + Misses (stats (pool reuseState)) +
   Z.of_nat (nil_errors [(Some 1%nat, @None goerror); (Some 2%nat, None)]))
    mod uint32_modulus.
Proof.
  apply (Gets_counted_by_Hits_and_Misses 2 reuseState (final (Gets 2 reuseState))).
  reflexivity.
Defined.
